(** * fish-shell [env.h]: environment variables

    A shallow embedding of [src/env.h].  The header defines the variable
    entity [env_var_t] in full (constructors, predicates, [set_val], the
    comparison operators), the mode flags and the [env_set] result codes.
    The scope stack operations ([env_get], [env_exist], [env_set],
    [env_remove], [env_push], [env_pop]) are only declared there; their
    models are marked as such below.  The snapshot class, of which the
    header shows the data member only, is not modelled. *)

From stdpp Require Import base strings list gmap fin_maps.
From Stdlib Require Import NArith ZArith Ascii String Bool Lia.

Local Open Scope string_scope.

(** ** Strings and sentinels *)

(** [wcstring] is the shell's wide string type.  The operations of the
    header only test strings for emptiness and equality. *)
Abbreviation wcstring := string.

(** [#define ARRAY_SEP_STR L"\x1e"] *)
Definition ARRAY_SEP_STR : wcstring := String (ascii_of_nat 30) EmptyString.

(** [#define ENV_NULL L"\x1d"]: the value denoting a null string. *)
Definition ENV_NULL : wcstring := String (ascii_of_nat 29) EmptyString.

(** [std::wstring::empty()] *)
Definition wcs_empty (s : wcstring) : bool := Nat.eqb (String.length s) 0.

(** ** Mode flags *)

Module Flags.

(** [typedef uint32_t env_mode_flags_t;] *)
Abbreviation env_mode_flags_t := N.

Definition ENV_DEFAULT : env_mode_flags_t := 0.
Definition ENV_LOCAL : env_mode_flags_t := 1.
Definition ENV_EXPORT : env_mode_flags_t := 2.
Definition ENV_UNEXPORT : env_mode_flags_t := 16.
Definition ENV_GLOBAL : env_mode_flags_t := 4.
Definition ENV_USER : env_mode_flags_t := 8.
Definition ENV_UNIVERSAL : env_mode_flags_t := 32.

(** The six named request modifiers, in the order of the enum. *)
Inductive flag : Set :=
| Local | Export | Unexport | Global | User | Universal.

Definition flag_value (f : flag) : env_mode_flags_t :=
  match f with
  | Local => ENV_LOCAL
  | Export => ENV_EXPORT
  | Unexport => ENV_UNEXPORT
  | Global => ENV_GLOBAL
  | User => ENV_USER
  | Universal => ENV_UNIVERSAL
  end.

Definition flag_eqb (a b : flag) : bool :=
  match a, b with
  | Local, Local | Export, Export | Unexport, Unexport
  | Global, Global | User, User | Universal, Universal => true
  | _, _ => false
  end.

(** [a | b | ...], starting from [ENV_DEFAULT]. *)
Definition combine (fs : list flag) : env_mode_flags_t :=
  fold_right (fun f m => N.lor (flag_value f) m) ENV_DEFAULT fs.

(** [mode & f] as a truth value. *)
Definition has (mode : env_mode_flags_t) (f : env_mode_flags_t) : bool :=
  negb (N.eqb (N.land mode f) 0).

End Flags.
Import Flags.

(** ** Return values of [env_set] *)

(** [enum { ENV_OK, ENV_PERM, ENV_SCOPE, ENV_INVALID };] *)
Inductive env_set_result : Set := ENV_OK | ENV_PERM | ENV_SCOPE | ENV_INVALID.

Definition env_set_result_eqb (a b : env_set_result) : bool :=
  match a, b with
  | ENV_OK, ENV_OK | ENV_PERM, ENV_PERM
  | ENV_SCOPE, ENV_SCOPE | ENV_INVALID, ENV_INVALID => true
  | _, _ => false
  end.

(** The enumerators as the declaration lists them. *)
Definition env_set_result_decl : list env_set_result :=
  [ENV_OK; ENV_PERM; ENV_SCOPE; ENV_INVALID].

(** An enumerator without initialiser takes the value of its predecessor
    plus one, the first one takes zero. *)
Fixpoint enumerator_value (decl : list env_set_result) (next : Z)
    (r : env_set_result) : option Z :=
  match decl with
  | [] => None
  | d :: rest =>
      if env_set_result_eqb d r then Some next
      else enumerator_value rest (next + 1)%Z r
  end.

Definition env_set_code (r : env_set_result) : option Z :=
  enumerator_value env_set_result_decl 0%Z r.

(** ** Outcome of an operation guarded by [assert] *)

Inductive outcome (A : Type) : Type :=
| Done (a : A)
| Abort.
Arguments Done {A} a.
Arguments Abort {A}.

(** ** The variable entity *)

Record env_var_t : Set := mk_env_var {
  val : wcstring;
  is_missing : bool;
  exportv : bool
}.

(** [env_var_t(const wcstring &x) : val(x), is_missing(false), exportv(false)] *)
Definition env_var (x : wcstring) : env_var_t := mk_env_var x false false.

(** [env_var_t() : val(L""), is_missing(false), exportv(false)] *)
Definition env_var_default : env_var_t := mk_env_var "" false false.

(** [void set_missing(void) { is_missing = true; }] *)
Definition set_missing (e : env_var_t) : env_var_t :=
  mk_env_var (val e) true (exportv e).

(** [bool empty(void) const { return val.empty() || val == ENV_NULL; }] *)
Definition empty (e : env_var_t) : bool :=
  wcs_empty (val e) || String.eqb (val e) ENV_NULL.

(** [bool missing(void) const { return is_missing; }] *)
Definition missing (e : env_var_t) : bool := is_missing e.

(** [bool missing_or_empty(void) const { return missing() || empty(); }] *)
Definition missing_or_empty (e : env_var_t) : bool := missing e || empty e.

(** [void set_val(const wcstring &s) { assert(!is_missing); val = s; }] *)
Definition set_val (e : env_var_t) (s : wcstring) : outcome env_var_t :=
  if negb (is_missing e) then Done (mk_env_var s (is_missing e) (exportv e))
  else Abort.

(** [bool operator==(const env_var_t &s) const] *)
Definition env_var_eq (a s : env_var_t) : bool :=
  Bool.eqb (is_missing a) (is_missing s) && String.eqb (val a) (val s).

(** [bool operator==(const wcstring &s) const] *)
Definition env_var_eq_str (a : env_var_t) (s : wcstring) : bool :=
  negb (is_missing a) && String.eqb (val a) s.

(** [bool operator!=(const env_var_t &v) const { return val != v.val; }] *)
Definition env_var_ne (a v : env_var_t) : bool :=
  negb (String.eqb (val a) (val v)).

(** [bool operator!=(const wcstring &s) const { return val != s; }] *)
Definition env_var_ne_str (a : env_var_t) (s : wcstring) : bool :=
  negb (String.eqb (val a) s).

(** Modelled from the spec: [create_missing_var()] and the global
    [missing_var] are declared in the header and defined elsewhere.  The
    missing entity is a default-constructed one marked missing. *)
Definition create_missing_var : env_var_t := set_missing env_var_default.
Definition missing_var : env_var_t := create_missing_var.

(** ** Scope frames and the scope stack *)

(** [typedef std::map<wcstring, env_var_t> var_table_t;] *)
Abbreviation var_table_t := (gmap string env_var_t).

(** Modelled from the spec: a scope frame (the node type of the variable
    stack is not in the header).  A frame is a name-to-entity table plus the
    marker saying whether it introduces a new scope. *)
Record env_node_t : Type := mk_node {
  env : var_table_t;
  new_scope : bool
}.

(** Modelled from the spec: the live scope stack (its definition is not in
    the header).  [locals] holds the pushed frames, innermost first; the
    bottom frame of the stack is the process-global one, so the stack is
    never empty; the universal table sits beside it.  The derived caches
    (export array, working directory, read limit) are projections of this
    state and are left out. *)
Record env_stack_t : Type := mk_stack {
  locals : list env_node_t;
  global_env : var_table_t;
  universal : var_table_t
}.

(** Identifier validation and the set of read-only names are external to
    the header and to the spec; the resolver is parameterised by them. *)
Class env_policy : Type := mk_policy {
  valid_name : wcstring -> bool;
  is_read_only : wcstring -> bool
}.

(** The entity a table holds for [key], the missing one if it has none. *)
Definition find_entry (t : var_table_t) (key : wcstring) : env_var_t :=
  match t !! key with
  | Some v => v
  | None => missing_var
  end.

Definition or_missing (v : env_var_t) : env_var_t :=
  if missing v then missing_var else v.

Definition first_present (a b : env_var_t) : env_var_t :=
  if missing a then b else a.

Definition scope_bits : env_mode_flags_t :=
  N.lor ENV_LOCAL (N.lor ENV_GLOBAL ENV_UNIVERSAL).

Definition has_scope (mode : env_mode_flags_t) : bool := has mode scope_bits.

Definition search_local (mode : env_mode_flags_t) : bool :=
  negb (has_scope mode) || has mode ENV_LOCAL.

Definition search_global (mode : env_mode_flags_t) : bool :=
  negb (has_scope mode) || has mode ENV_GLOBAL.

Definition search_universal (mode : env_mode_flags_t) : bool :=
  negb (has_scope mode) || has mode ENV_UNIVERSAL.

(** Search of the pushed frames, innermost first.  A frame that introduces
    a new scope hides the frames of its caller. *)
Fixpoint get_local (fs : list env_node_t) (key : wcstring) : env_var_t :=
  match fs with
  | [] => missing_var
  | f :: rest =>
      let v := find_entry (env f) key in
      if negb (missing v) then v
      else if new_scope f then missing_var
      else get_local rest key
  end.

(** The search behind [env_get] and [env_exist].  If [mode] names scopes,
    only those are searched; otherwise the local frames top to bottom, then
    the global frame, then the universal table.  The first present entity
    is the result. *)
Definition env_resolve (st : env_stack_t) (key : wcstring)
    (mode : env_mode_flags_t) : env_var_t :=
  let l := if search_local mode then get_local (locals st) key
           else missing_var in
  let g := if search_global mode then or_missing (find_entry (global_env st) key)
           else missing_var in
  let u := if search_universal mode then or_missing (find_entry (universal st) key)
           else missing_var in
  first_present l (first_present g u).

(** Modelled from the spec: [env_exist] is declared in the header only,
    which says that it "returns true if the specified key exists" and that
    "this can't be reliably done using env_get, since env_get returns null
    for 0-element arrays". *)
Definition env_exist (st : env_stack_t) (key : wcstring)
    (mode : env_mode_flags_t) : bool :=
  negb (missing (env_resolve st key mode)).

(** Modelled from the spec: [env_get] is declared in the header only,
    which says that it gets the variable with the specified name, "or
    env_var_t::missing_var if it does not exist or is an empty array".
    [ENV_NULL], the header's value denoting a null string, is the stored
    form of an array without elements. *)
Definition env_get (st : env_stack_t) (key : wcstring)
    (mode : env_mode_flags_t) : env_var_t :=
  let v := env_resolve st key mode in
  if String.eqb (val v) ENV_NULL then missing_var else v.

(** The entity stored by a successful [set]: present, with the new value;
    exported as [ENV_EXPORT] / [ENV_UNEXPORT] say, as before otherwise. *)
Definition updated_var (old : env_var_t) (mode : env_mode_flags_t)
    (v : wcstring) : env_var_t :=
  mk_env_var v false
    (if has mode ENV_EXPORT then true
     else if has mode ENV_UNEXPORT then false
     else negb (missing old) && exportv old).

Definition put (t : var_table_t) (key : wcstring) (mode : env_mode_flags_t)
    (v : wcstring) : var_table_t :=
  <[key := updated_var (find_entry t key) mode v]> t.

Definition put_node (f : env_node_t) (key : wcstring)
    (mode : env_mode_flags_t) (v : wcstring) : env_node_t :=
  mk_node (put (env f) key mode v) (new_scope f).

(** Write into the innermost frame: the top pushed frame, or the global
    frame when nothing is pushed. *)
Definition set_top (st : env_stack_t) (key : wcstring)
    (mode : env_mode_flags_t) (v : wcstring) : env_stack_t :=
  match locals st with
  | f :: rest => mk_stack (put_node f key mode v :: rest) (global_env st) (universal st)
  | [] => mk_stack [] (put (global_env st) key mode v) (universal st)
  end.

Definition set_global (st : env_stack_t) (key : wcstring)
    (mode : env_mode_flags_t) (v : wcstring) : env_stack_t :=
  mk_stack (locals st) (put (global_env st) key mode v) (universal st).

Definition set_universal (st : env_stack_t) (key : wcstring)
    (mode : env_mode_flags_t) (v : wcstring) : env_stack_t :=
  mk_stack (locals st) (global_env st) (put (universal st) key mode v).

(** Update the binding of [key] in the visible pushed frame that holds it. *)
Fixpoint set_local_existing (fs : list env_node_t) (key : wcstring)
    (mode : env_mode_flags_t) (v : wcstring) : option (list env_node_t) :=
  match fs with
  | [] => None
  | f :: rest =>
      if negb (missing (find_entry (env f) key)) then
        Some (put_node f key mode v :: rest)
      else if new_scope f then None
      else
        match set_local_existing rest key mode v with
        | Some rest' => Some (f :: rest')
        | None => None
        end
  end.

(** Number of scope flags a mode carries. *)
Definition scope_count (mode : env_mode_flags_t) : nat :=
  (if has mode ENV_LOCAL then 1 else 0) +
  (if has mode ENV_GLOBAL then 1 else 0) +
  (if has mode ENV_UNIVERSAL then 1 else 0).

(** The write of a [set] that passed its checks. *)
Definition store (st : env_stack_t) (key : wcstring)
    (mode : env_mode_flags_t) (v : wcstring) : env_stack_t :=
  if has mode ENV_LOCAL then set_top st key mode v
  else if has mode ENV_GLOBAL then set_global st key mode v
  else if has mode ENV_UNIVERSAL then set_universal st key mode v
  else
    match set_local_existing (locals st) key mode v with
    | Some ls => mk_stack ls (global_env st) (universal st)
    | None =>
        if negb (missing (find_entry (global_env st) key)) then
          set_global st key mode v
        else if negb (missing (find_entry (universal st) key)) then
          set_universal st key mode v
        else set_top st key mode v
    end.

(** Modelled from the spec: [env_set] is declared in the header only.
    [ENV_PERM] for a user request on a read-only name, [ENV_SCOPE] for two
    scope flags at once, [ENV_INVALID] for a name that fails validation.
    Every scope a single flag can name exists here (the innermost frame is
    the global one when nothing is pushed).  Without a scope flag the
    existing binding is updated where it lives, else the variable is created
    in the innermost frame.  A failed [set] leaves the stack as it was. *)
Definition env_set {policy : env_policy} (st : env_stack_t) (key : wcstring)
    (mode : env_mode_flags_t) (v : wcstring) : env_set_result * env_stack_t :=
  if has mode ENV_USER && is_read_only key then (ENV_PERM, st)
  else if Nat.leb 2 (scope_count mode) then (ENV_SCOPE, st)
  else if negb (valid_name key) then (ENV_INVALID, st)
  else (ENV_OK, store st key mode v).

(** Erase [key] from the innermost visible pushed frame that binds it. *)
Fixpoint erase_local_first (fs : list env_node_t) (key : wcstring)
    : list env_node_t :=
  match fs with
  | [] => []
  | f :: rest =>
      if negb (missing (find_entry (env f) key)) then
        mk_node (delete key (env f)) (new_scope f) :: rest
      else if new_scope f then f :: rest
      else f :: erase_local_first rest key
  end.

(** Erase the binding of [key] that a lookup with [mode] resolves to. *)
Definition erase_first (st : env_stack_t) (key : wcstring)
    (mode : env_mode_flags_t) : env_stack_t :=
  if search_local mode && negb (missing (get_local (locals st) key)) then
    mk_stack (erase_local_first (locals st) key) (global_env st) (universal st)
  else if search_global mode
          && negb (missing (find_entry (global_env st) key)) then
    mk_stack (locals st) (delete key (global_env st)) (universal st)
  else if search_universal mode
          && negb (missing (find_entry (universal st) key)) then
    mk_stack (locals st) (global_env st) (delete key (universal st))
  else st.

(** [env_remove] takes its mode as an [int]; the flag tests see it as an
    [env_mode_flags_t], that is modulo [2 ^ 32]. *)
Definition mode_bits (mode : Z) : env_mode_flags_t :=
  Z.to_N (mode mod 2 ^ 32)%Z.

(** The header fixes the result of [env_remove] up to this: "zero if the
    variable existed, and non-zero if the variable did not exist". *)
Inductive remove_result : Set := returned_zero | returned_nonzero.

(** Modelled from the spec: [env_remove] is declared in the header only.
    A user request on a read-only name fails; otherwise the result is zero
    if the variable existed in the scopes [mode] targets, and "the variable
    that should be erased", the binding a lookup resolves to, is erased;
    if it did not exist the result is non-zero.  The stack is unchanged
    when the result is non-zero. *)
Definition env_remove {policy : env_policy} (st : env_stack_t) (key : wcstring)
    (mode : Z) : remove_result * env_stack_t :=
  if has (mode_bits mode) ENV_USER && is_read_only key then
    (returned_nonzero, st)
  else if env_exist st key (mode_bits mode) then
    (returned_zero, erase_first st key (mode_bits mode))
  else (returned_nonzero, st).

(** Modelled from the spec: [env_push] is declared in the header only.  It
    puts a fresh, empty frame on the stack. *)
Definition env_push (st : env_stack_t) (new_scope : bool) : env_stack_t :=
  mk_stack (mk_node ∅ new_scope :: locals st) (global_env st) (universal st).

(** Modelled from the spec: [env_pop] is declared in the header only.
    Popping drops the innermost pushed frame; with only the global frame
    left it is a fatal programming error. *)
Definition env_pop (st : env_stack_t) : outcome env_stack_t :=
  match locals st with
  | _ :: rest => Done (mk_stack rest (global_env st) (universal st))
  | [] => Abort
  end.



(** An entity that is present and holds [v]. *)
Definition holds (e : env_var_t) (v : wcstring) : Prop :=
  missing e = false /\ val e = v.

(** ** Sample inputs *)

(** The policy that accepts every name and protects none. *)
Definition permissive_policy : env_policy :=
  mk_policy (fun _ => true) (fun _ => false).

Definition empty_stack : env_stack_t := mk_stack [] ∅ ∅.

(** [x] and [y] in the global frame, [x] again in a pushed frame. *)
Definition sample_stack : env_stack_t :=
  mk_stack
    [mk_node {[ "x" := env_var "inner" ]} true]
    {[ "y" := env_var "0"; "x" := env_var "outer" ]}
    ∅.

(** ** Changing an entity in place *)

(** [#define ARRAY_SEP (wchar_t)0x1e] *)
Definition ARRAY_SEP : ascii := ascii_of_nat 30.

(** The changes to a part of an entity that the class offers:
    [e.set_val(s)], [e.set_missing()] and an assignment to the public
    member, [e.exportv = b].  (An assignment to the whole entity replaces
    it and is not one of them.) *)
Inductive mutation : Set :=
| SetVal (s : wcstring)
| SetMissing
| SetExport (b : bool).

Definition apply_mutation (m : mutation) (e : env_var_t) : outcome env_var_t :=
  match m with
  | SetVal s => set_val e s
  | SetMissing => Done (set_missing e)
  | SetExport b => Done (mk_env_var (val e) (is_missing e) b)
  end.

(** A sequence of such statements on one entity; a failed assertion ends
    the program. *)
Fixpoint run (ms : list mutation) (e : env_var_t) : outcome env_var_t :=
  match ms with
  | [] => Done e
  | m :: rest =>
      match apply_mutation m e with
      | Done e' => run rest e'
      | Abort => Abort
      end
  end.

(** The argument of the last [set_val] of a sequence, [d] if it has none. *)
Definition last_val (ms : list mutation) (d : wcstring) : wcstring :=
  fold_left (fun acc m => match m with SetVal s => s | _ => acc end) ms d.

(** The last value assigned to [exportv], [d] if there is none. *)
Definition last_export (ms : list mutation) (d : bool) : bool :=
  fold_left (fun acc m => match m with SetExport b => b | _ => acc end) ms d.

Definition is_set_missing (m : mutation) : bool :=
  match m with SetMissing => true | _ => false end.

(** The six flags of the enum. *)
Definition all_flags : list flag :=
  [Local; Export; Unexport; Global; User; Universal].

(** * Properties of the variable entity *)

Lemma wcs_empty_true (s : wcstring) : wcs_empty s = true <-> s = "".
Proof.
  unfold wcs_empty. destruct s as [|c s]; simpl; split; intro E;
    first [reflexivity | discriminate].
Qed.

Lemma env_var_eq_spec (a b : env_var_t) :
  env_var_eq a b = true <-> is_missing a = is_missing b /\ val a = val b.
Proof.
  unfold env_var_eq. rewrite andb_true_iff, Bool.eqb_true_iff, String.eqb_eq.
  reflexivity.
Qed.

(** C2, as stated, fails: two missing entities that still hold different
    strings are not equal under [operator==]. *)
Lemma env_var_eq_both_missing_differ :
  let a := set_missing (env_var "a") in
  let b := create_missing_var in
  ~ (env_var_eq a b = true <->
     (missing a = true /\ missing b = true) \/
     (missing a = false /\ missing b = false /\ val a = val b)).
Proof.
  simpl. intros [_ E]. discriminate E. left. split; reflexivity.
Qed.

(** C2 (amended): [a == b] holds exactly when the missing flags agree and
    the stored strings are equal; hence two present entities are equal iff
    their values are, and anything equal to a missing entity is missing.
    The exported flag has no influence on the result. *)
Theorem env_var_eq_flags_and_value :
  forall a b : env_var_t,
    (env_var_eq a b = true <-> is_missing a = is_missing b /\ val a = val b)
    /\ (env_var_eq a b = true <->
        (missing a = true /\ missing b = true /\ val a = val b) \/
        (missing a = false /\ missing b = false /\ val a = val b))
    /\ (forall xa xb : bool,
          env_var_eq (mk_env_var (val a) (is_missing a) xa)
                     (mk_env_var (val b) (is_missing b) xb)
          = env_var_eq a b).
Proof.
  intros a b. split; [apply env_var_eq_spec|]. split; [|reflexivity].
  rewrite env_var_eq_spec. unfold missing.
  destruct (is_missing a), (is_missing b); intuition congruence.
Qed.

(** C3: [missing_or_empty()] is true exactly when the entity is missing, or
    its value is the empty string, or its value is [ENV_NULL]; it is false
    in every other case. *)
Theorem missing_or_empty_exactly (e : env_var_t) :
  (missing_or_empty e = true <->
     is_missing e = true \/ val e = "" \/ val e = ENV_NULL)
  /\ (missing_or_empty e = false <->
     is_missing e = false /\ val e <> "" /\ val e <> ENV_NULL).
Proof.
  assert (T : missing_or_empty e = true <->
              is_missing e = true \/ val e = "" \/ val e = ENV_NULL).
  { unfold missing_or_empty, empty, missing.
    rewrite !orb_true_iff, wcs_empty_true, String.eqb_eq. reflexivity. }
  split; [exact T|].
  rewrite <- not_true_iff_false, T.
  destruct (is_missing e); split.
  - intros N. exfalso. apply N. left. reflexivity.
  - intros [D _]. discriminate D.
  - intros N. split; [reflexivity|]. split; intro E; apply N; auto.
  - intros [_ [N1 N2]] [D | [E | E]]; [discriminate D | exact (N1 E) | exact (N2 E)].
Qed.

(** C4: on an entity whose missing flag is set, [set_val] trips its
    assertion whatever the argument; on a present entity it succeeds and
    replaces the value, leaving both flags as they were. *)
Theorem set_val_guarded (v s : wcstring) (x : bool) :
  set_val (mk_env_var v true x) s = Abort
  /\ set_val (mk_env_var v false x) s = Done (mk_env_var s false x).
Proof. split; reflexivity. Qed.

Lemma set_val_by_flag (e : env_var_t) (s : wcstring) :
  set_val e s =
  if is_missing e then Abort else Done (mk_env_var s false (exportv e)).
Proof. unfold set_val. destruct (is_missing e); reflexivity. Qed.

(** C10: [operator!=] looks at the stored strings only, whatever the
    missing (and exported) flags are, so it is not the negation of
    [operator==]: a missing entity and a present one with the same stored
    string are neither [==] nor [!=]. *)
Theorem env_var_ne_ignores_missing :
  (forall (v1 v2 : wcstring) (m1 m2 x1 x2 : bool),
     env_var_ne (mk_env_var v1 m1 x1) (mk_env_var v2 m2 x2)
     = negb (String.eqb v1 v2))
  /\ (forall v : wcstring,
        let a := set_missing (env_var v) in
        let b := env_var v in
        missing a = true /\ missing b = false /\ val a = val b
        /\ env_var_eq a b = false /\ env_var_ne a b = false)
  /\ (exists a b : env_var_t, env_var_ne a b <> negb (env_var_eq a b)).
Proof.
  split; [reflexivity|]. split.
  - intros v. simpl. unfold env_var_ne, env_var_eq; simpl.
    rewrite String.eqb_refl. repeat split; reflexivity.
  - exists (set_missing (env_var "x")), (env_var "x"). discriminate.
Qed.

(** * Properties of the constants *)

Lemma flag_values_disjoint (f g : flag) :
  N.land (flag_value g) (flag_value f) = 0%N <-> f <> g.
Proof.
  destruct f, g; simpl; split; intro E;
    first [discriminate | reflexivity | exfalso; apply E; reflexivity
          | (intro; discriminate)].
Qed.

(** C6: the flag constants have the values 0, 1, 2, 4, 8, 16 and 32, and a
    mode built with bitwise OR carries exactly the flags it was built
    from. *)
Theorem mode_flag_values :
  ENV_DEFAULT = 0%N /\ ENV_LOCAL = 1%N /\ ENV_EXPORT = 2%N
  /\ ENV_GLOBAL = 4%N /\ ENV_USER = 8%N /\ ENV_UNEXPORT = 16%N
  /\ ENV_UNIVERSAL = 32%N
  /\ (forall (f : flag) (fs : list flag),
        combine (f :: fs) = N.lor (flag_value f) (combine fs))
  /\ (forall (fs : list flag) (f : flag),
        has (combine fs) (flag_value f) = true <-> In f fs).
Proof.
  repeat (split; [reflexivity|]).
  intros fs f. unfold has. rewrite negb_true_iff, N.eqb_neq.
  induction fs as [|g fs IH]; simpl.
  - split; [intro E; apply E; reflexivity | tauto].
  - rewrite N.land_lor_distr_l, N.lor_eq_0_iff, flag_values_disjoint.
    split.
    + intros E. destruct (flag_eqb g f) eqn:D;
        [left; destruct g, f; first [reflexivity | discriminate D]|].
      right. apply IH. intro Z. apply E. split; [|exact Z].
      intros ->. destruct g; discriminate D.
    + intros [-> | I] [E1 E2]; [apply E1; reflexivity|].
      apply IH in I. exact (I E2).
Qed.

(** C7: the result codes of [env_set] are numbered 0, 1, 2, 3 in the order
    [ENV_OK], [ENV_PERM], [ENV_SCOPE], [ENV_INVALID]. *)
Theorem env_set_result_codes :
  env_set_code ENV_OK = Some 0%Z /\ env_set_code ENV_PERM = Some 1%Z
  /\ env_set_code ENV_SCOPE = Some 2%Z /\ env_set_code ENV_INVALID = Some 3%Z.
Proof. repeat split. Qed.

(** * Properties of the scope stack *)

Section Resolver.
Context {policy : env_policy}.

Lemma updated_var_holds old mode v : holds (updated_var old mode v) v.
Proof. split; reflexivity. Qed.

Lemma find_entry_put t key mode v :
  find_entry (put t key mode v) key = updated_var (find_entry t key) mode v.
Proof. unfold find_entry at 1, put. rewrite lookup_insert_eq. reflexivity. Qed.


Lemma or_missing_present e : missing e = false -> or_missing e = e.
Proof. unfold or_missing. intros ->. reflexivity. Qed.

Lemma or_missing_absent e : missing e = true -> or_missing e = missing_var.
Proof. unfold or_missing. intros ->. reflexivity. Qed.

Lemma set_local_existing_found fs key mode v ls :
  set_local_existing fs key mode v = Some ls ->
  holds (get_local ls key) v.
Proof.
  revert ls. induction fs as [|f rest IH]; intros ls E; simpl in E.
  - discriminate E.
  - destruct (missing (find_entry (env f) key)) eqn:M; simpl in E.
    + destruct (new_scope f) eqn:NS; [discriminate E|].
      destruct (set_local_existing rest key mode v) as [rest'|] eqn:R;
        [|discriminate E].
      injection E as <-. simpl. rewrite M, NS. simpl. apply IH. reflexivity.
    + injection E as <-. simpl. rewrite find_entry_put. simpl.
      apply updated_var_holds.
Qed.

Lemma set_local_existing_none fs key mode v :
  set_local_existing fs key mode v = None -> get_local fs key = missing_var.
Proof.
  induction fs as [|f rest IH]; intros E; simpl in *.
  - reflexivity.
  - destruct (missing (find_entry (env f) key)) eqn:M; simpl in *;
      [|discriminate E].
    destruct (new_scope f); [reflexivity|].
    destruct (set_local_existing rest key mode v); [discriminate E|].
    apply IH. reflexivity.
Qed.

(** After a mode-free write the search finds the entity just written. *)
Lemma store_default_then_resolve st key v :
  holds (env_resolve (store st key ENV_DEFAULT v) key ENV_DEFAULT) v.
Proof.
  unfold store, env_resolve.
  change (has ENV_DEFAULT ENV_LOCAL) with false.
  change (has ENV_DEFAULT ENV_GLOBAL) with false.
  change (has ENV_DEFAULT ENV_UNIVERSAL) with false.
  change (search_local ENV_DEFAULT) with true.
  change (search_global ENV_DEFAULT) with true.
  change (search_universal ENV_DEFAULT) with true.
  cbv iota.
  destruct (set_local_existing (locals st) key ENV_DEFAULT v) as [ls|] eqn:L.
  - apply set_local_existing_found in L. simpl.
    unfold first_present at 1. destruct L as [M V]. rewrite M.
    split; assumption.
  - apply set_local_existing_none in L.
    destruct (missing (find_entry (global_env st) key)) eqn:G; simpl.
    + destruct (missing (find_entry (universal st) key)) eqn:U; simpl.
      * unfold set_top. destruct (locals st) as [|f rest]; simpl.
        -- rewrite find_entry_put, or_missing_present by reflexivity.
           apply updated_var_holds.
        -- rewrite find_entry_put. apply updated_var_holds.
      * rewrite L, (or_missing_absent _ G), find_entry_put.
        rewrite or_missing_present by reflexivity. apply updated_var_holds.
    + rewrite L, find_entry_put, or_missing_present by reflexivity.
      apply updated_var_holds.
Qed.

Lemma env_get_not_null st key mode :
  val (env_resolve st key mode) <> ENV_NULL ->
  env_get st key mode = env_resolve st key mode.
Proof.
  intros N. unfold env_get. simpl.
  destruct (String.eqb_spec (val (env_resolve st key mode)) ENV_NULL) as [E|_];
    [contradiction | reflexivity].
Qed.

Lemma env_get_null st key mode :
  val (env_resolve st key mode) = ENV_NULL ->
  env_get st key mode = missing_var.
Proof. intros E. unfold env_get. simpl. rewrite E. reflexivity. Qed.

(** A variable set to [ENV_NULL] exists, and [env_get] reports it
    missing. *)
Lemma env_set_null_exists_but_reads_missing (st : env_stack_t) (n : wcstring) :
  valid_name n = true ->
  env_exist (snd (env_set st n ENV_DEFAULT ENV_NULL)) n ENV_DEFAULT = true
  /\ env_get (snd (env_set st n ENV_DEFAULT ENV_NULL)) n ENV_DEFAULT = missing_var.
Proof.
  intros V. unfold env_set.
  change (has ENV_DEFAULT ENV_USER) with false.
  change (scope_count ENV_DEFAULT) with 0%nat.
  rewrite V. simpl.
  destruct (store_default_then_resolve st n ENV_NULL) as [M E].
  split.
  - unfold env_exist. rewrite M. reflexivity.
  - apply env_get_null. exact E.
Qed.

(** C1, as stated, fails at the value [ENV_NULL]: the [set] succeeds, the
    variable exists, and the [get] that follows returns the missing
    entity, as the header says of a variable that is an empty array.  The
    policy here accepts every name. *)
Lemma env_set_null_then_get_missing :
  let r := env_set (policy := permissive_policy) empty_stack "x"
             ENV_DEFAULT ENV_NULL in
  fst r = ENV_OK
  /\ env_exist (snd r) "x" ENV_DEFAULT = true
  /\ ~ (missing (env_get (snd r) "x" ENV_DEFAULT) = false
        /\ val (env_get (snd r) "x" ENV_DEFAULT) = ENV_NULL).
Proof.
  split; [reflexivity|]. split; [reflexivity|].
  intros [M _]. vm_compute in M. discriminate M.
Qed.

(** C1 (amended): for every variable name, that is every name identifier
    validation accepts, and every string value other than [ENV_NULL], a
    [set] without mode flags succeeds, and the [get] without mode flags that
    follows returns a present entity whose value is the one that was set. *)
Theorem env_set_then_get (st : env_stack_t) (n v : wcstring) :
  valid_name n = true ->
  v <> ENV_NULL ->
  fst (env_set st n ENV_DEFAULT v) = ENV_OK
  /\ missing (env_get (snd (env_set st n ENV_DEFAULT v)) n ENV_DEFAULT) = false
  /\ val (env_get (snd (env_set st n ENV_DEFAULT v)) n ENV_DEFAULT) = v.
Proof.
  intros V N. unfold env_set.
  change (has ENV_DEFAULT ENV_USER) with false.
  change (scope_count ENV_DEFAULT) with 0%nat.
  rewrite V. simpl. split; [reflexivity|].
  destruct (store_default_then_resolve st n v) as [M E].
  rewrite env_get_not_null by (rewrite E; exact N).
  split; assumption.
Qed.

(** ** Removal *)






(** A user request never removes a read-only variable, whether it is set
    or not. *)
Lemma env_remove_read_only_refused (st : env_stack_t) (n : wcstring) (mode : Z) :
  has (mode_bits mode) ENV_USER = true -> is_read_only n = true ->
  env_remove st n mode = (returned_nonzero, st).
Proof. intros U R. unfold env_remove. rewrite U, R. reflexivity. Qed.



(** C9: with only the global frame on the stack, [pop] is fatal: it yields
    no stack to continue with; a [pop] right after a [push] succeeds and
    gives back the stack as it was before the [push]. *)
Theorem env_pop_underflow_fatal :
  (forall g u : var_table_t, env_pop (mk_stack [] g u) = Abort)
  /\ (forall st : env_stack_t, env_pop st = Abort <-> locals st = [])
  /\ (forall (st : env_stack_t) (b : bool), env_pop (env_push st b) = Done st).
Proof.
  split; [reflexivity|]. split.
  - intros st. unfold env_pop. destruct (locals st); split; intro E;
      first [reflexivity | discriminate E].
  - intros [ls g u] b. reflexivity.
Qed.

End Resolver.

(** ** Instances of the conditional statements *)

Lemma env_set_then_get_sample :
  valid_name (env_policy := permissive_policy) "x" = true
  /\ "new" <> ENV_NULL
  /\ fst (env_set (policy := permissive_policy) sample_stack "x" ENV_DEFAULT "new")
     = ENV_OK
  /\ missing (env_get (snd (env_set (policy := permissive_policy) sample_stack "x"
                              ENV_DEFAULT "new")) "x" ENV_DEFAULT) = false
  /\ val (env_get (snd (env_set (policy := permissive_policy) sample_stack "x"
                          ENV_DEFAULT "new")) "x" ENV_DEFAULT) = "new".
Proof.
  split; [reflexivity|]. split; [discriminate|].
  apply (env_set_then_get (policy := permissive_policy) sample_stack "x" "new");
    [reflexivity | discriminate].
Defined.


(** * Further properties of the variable entity *)

(** X1: [operator==] between entities is an equivalence relation. *)
Theorem env_var_eq_equivalence :
  (forall a : env_var_t, env_var_eq a a = true)
  /\ (forall a b : env_var_t, env_var_eq a b = env_var_eq b a)
  /\ (forall a b c : env_var_t,
        env_var_eq a b = true -> env_var_eq b c = true -> env_var_eq a c = true).
Proof.
  split; [|split].
  - intros a. apply env_var_eq_spec. split; reflexivity.
  - intros a b. apply eq_true_iff_eq. rewrite !env_var_eq_spec.
    split; intros [E1 E2]; split; congruence.
  - intros a b c. rewrite !env_var_eq_spec. intros [E1 E2] [E3 E4].
    split; congruence.
Qed.

(** X2: entities that are [==] cannot be told apart by any other member
    function that reads an entity: [missing], [empty], [missing_or_empty]
    and the comparisons with a string give the same answers on both. *)
Theorem env_var_eq_congruence (a b : env_var_t) :
  env_var_eq a b = true ->
  missing a = missing b /\ empty a = empty b
  /\ missing_or_empty a = missing_or_empty b
  /\ (forall s : wcstring,
        env_var_eq_str a s = env_var_eq_str b s
        /\ env_var_ne_str a s = env_var_ne_str b s)
  /\ (forall c : env_var_t,
        env_var_eq a c = env_var_eq b c /\ env_var_ne a c = env_var_ne b c).
Proof.
  rewrite env_var_eq_spec. intros [M V].
  unfold missing_or_empty, empty, missing, env_var_eq_str, env_var_ne_str,
    env_var_eq, env_var_ne.
  rewrite M, V. repeat split.
Qed.

(** X3: [a != b] is the negation of [a == b] exactly when the two missing
    flags agree or the stored strings differ. *)
Theorem env_var_ne_negates_eq_iff (a b : env_var_t) :
  env_var_ne a b = negb (env_var_eq a b)
  <-> (is_missing a = is_missing b \/ val a <> val b).
Proof.
  unfold env_var_ne, env_var_eq.
  destruct (String.eqb_spec (val a) (val b)) as [E|N];
    destruct (is_missing a), (is_missing b); simpl;
    split; intros H; try reflexivity; try discriminate H; auto;
    destruct H as [H|H]; first [discriminate H | contradiction].
Qed.

(** X4: [a == s] for a string [s] holds exactly when [a] is present and
    stores [s]; a missing entity is equal to no string, not even to the one
    it stores. *)
Theorem env_var_eq_str_present_only (a : env_var_t) (s : wcstring) :
  (env_var_eq_str a s = true <-> is_missing a = false /\ val a = s)
  /\ env_var_eq_str (set_missing a) s = false.
Proof.
  unfold env_var_eq_str. split; [|reflexivity].
  rewrite andb_true_iff, negb_true_iff, String.eqb_eq. reflexivity.
Qed.

(** X5: comparing with a string gives the same result as comparing with
    the entity constructed from that string, for [==] and for [!=]. *)
Theorem env_var_compare_overloads_agree (a : env_var_t) (s : wcstring) :
  env_var_eq a (env_var s) = env_var_eq_str a s
  /\ env_var_ne a (env_var s) = env_var_ne_str a s.
Proof.
  unfold env_var_eq, env_var_eq_str, env_var_ne, env_var_ne_str. simpl.
  destruct (is_missing a); split; reflexivity.
Qed.

(** X6: [a != s] is the negation of [a == s] exactly when [a] is present
    or stores a string other than [s]. *)
Theorem env_var_ne_str_negates_eq_iff (a : env_var_t) (s : wcstring) :
  env_var_ne_str a s = negb (env_var_eq_str a s)
  <-> (is_missing a = false \/ val a <> s).
Proof.
  unfold env_var_ne_str, env_var_eq_str.
  destruct (String.eqb_spec (val a) s) as [E|N];
    destruct (is_missing a); simpl;
    split; intros H; try reflexivity; try discriminate H; auto;
    destruct H as [H|H]; first [discriminate H | contradiction].
Qed.

(** X7: an entity whose stored string contains the array separator, that
    is an array of two or more elements, is never reported [empty]. *)
Theorem array_value_not_empty (e : env_var_t) :
  In ARRAY_SEP (list_ascii_of_string (val e)) -> empty e = false.
Proof.
  unfold empty. destruct (val e) as [|c rest]; simpl; [tauto|].
  intros I. unfold ENV_NULL. simpl.
  destruct (Ascii.eqb_spec c (ascii_of_nat 29)) as [->|N]; [|reflexivity].
  destruct rest as [|c' rest']; [|reflexivity].
  destruct I as [E | []]. discriminate E.
Qed.

(** X8: on a present entity [set_val(s)] succeeds, and the entity then
    compares [==] to [s] and not [!=] to it, is still present, keeps its
    export flag, and is [empty] exactly when [s] is the empty string or
    [ENV_NULL]. *)
Theorem set_val_then_compare (e : env_var_t) (s : wcstring) :
  is_missing e = false ->
  exists e' : env_var_t,
    set_val e s = Done e'
    /\ env_var_eq_str e' s = true /\ env_var_ne_str e' s = false
    /\ missing e' = false /\ exportv e' = exportv e
    /\ (empty e' = true <-> s = "" \/ s = ENV_NULL).
Proof.
  intros M. exists (mk_env_var s false (exportv e)).
  unfold set_val, env_var_eq_str, env_var_ne_str, empty. rewrite M. simpl.
  rewrite String.eqb_refl. repeat split; try reflexivity.
  - rewrite orb_true_iff, wcs_empty_true, String.eqb_eq. tauto.
  - rewrite orb_true_iff, wcs_empty_true, String.eqb_eq. tauto.
Qed.

(** X9: being missing is permanent.  Whatever sequence of [set_val],
    [set_missing] and [exportv] assignments runs to its end on an entity
    that is missing, the entity is missing afterwards and stores the same
    string as before. *)
Theorem missing_is_permanent (ms : list mutation) (e e' : env_var_t) :
  is_missing e = true -> run ms e = Done e' ->
  is_missing e' = true /\ val e' = val e.
Proof.
  revert e. induction ms as [|m rest IH]; intros e M R; simpl in R.
  - injection R as <-. split; [exact M | reflexivity].
  - destruct m as [s| |b]; simpl in R.
    + unfold set_val in R. rewrite M in R. discriminate R.
    + apply (IH (set_missing e)); [reflexivity | exact R].
    + apply (IH (mk_env_var (val e) (is_missing e) b)); [exact M | exact R].
Qed.

Lemma run_abort_after_missing (pre post : list mutation) (s : wcstring)
    (e : env_var_t) :
  is_missing e = true \/ In SetMissing pre ->
  run (pre ++ SetVal s :: post)%list e = Abort.
Proof.
  revert e. induction pre as [|m pre IH]; intros e C; simpl.
  - destruct C as [M | []]. unfold set_val. rewrite M. reflexivity.
  - destruct m as [s0| |b]; simpl.
    + unfold set_val. destruct (is_missing e) eqn:M; simpl; [reflexivity|].
      apply IH. destruct C as [D | [D | I]];
        [discriminate D | discriminate D | right; exact I].
    + apply IH. left. reflexivity.
    + apply IH. simpl. destruct C as [M | [D | I]];
        [left; exact M | discriminate D | right; exact I].
Qed.

(** X10: a sequence of [set_val], [set_missing] and [exportv] assignments
    trips the assertion exactly when it contains a [set_val] that comes
    after a [set_missing], or any [set_val] at all if the entity was missing
    from the start. *)
Theorem run_aborts_iff (ms : list mutation) (e : env_var_t) :
  run ms e = Abort <->
  exists (pre : list mutation) (s : wcstring) (post : list mutation),
    ms = (pre ++ SetVal s :: post)%list
    /\ (is_missing e = true \/ In SetMissing pre).
Proof.
  split.
  - revert e. induction ms as [|m rest IH]; intros e R; simpl in R.
    + discriminate R.
    + destruct m as [s| |b]; simpl in R.
      * unfold set_val in R. destruct (is_missing e) eqn:M; simpl in R.
        -- exists [], s, rest. split; [reflexivity | left; reflexivity].
        -- destruct (IH _ R) as (pre & s' & post & -> & [D | I]);
             [discriminate D|].
           exists (SetVal s :: pre), s', post.
           split; [reflexivity | right; right; exact I].
      * destruct (IH _ R) as (pre & s' & post & -> & _).
        exists (SetMissing :: pre), s', post.
        split; [reflexivity | right; left; reflexivity].
      * destruct (IH _ R) as (pre & s' & post & -> & C).
        exists (SetExport b :: pre), s', post.
        split; [reflexivity|]. simpl in C.
        destruct C as [M | I]; [left; exact M | right; right; exact I].
  - intros (pre & s & post & -> & C). apply run_abort_after_missing. exact C.
Qed.

(** X11: when such a sequence runs to its end, the entity stores the
    argument of the last [set_val] (its old string if there was none), is
    missing iff it was missing or the sequence contains a [set_missing],
    and carries the last value assigned to [exportv] (its old flag if there
    was none). *)
Theorem run_final_state (ms : list mutation) (e e' : env_var_t) :
  run ms e = Done e' ->
  e' = mk_env_var (last_val ms (val e))
         (is_missing e || existsb is_set_missing ms)
         (last_export ms (exportv e)).
Proof.
  unfold last_val, last_export.
  revert e. induction ms as [|m rest IH]; intros e R; simpl in R.
  - injection R as <-. simpl. rewrite orb_false_r. destruct e; reflexivity.
  - destruct m as [s| |b]; simpl in R.
    + unfold set_val in R. destruct (is_missing e) eqn:M; simpl in R;
        [discriminate R|].
      apply IH in R. simpl in *. exact R.
    + apply IH in R. simpl in *. rewrite orb_true_r. exact R.
    + apply IH in R. simpl in *. exact R.
Qed.

(** * Further properties of the mode flags *)

Lemma has_combine_In (fs : list flag) (f : flag) :
  has (combine fs) (flag_value f) = true <-> In f fs.
Proof.
  unfold has. rewrite negb_true_iff, N.eqb_neq.
  induction fs as [|g fs IH]; simpl.
  - split; [intros E; apply E; reflexivity | tauto].
  - rewrite N.land_lor_distr_l, N.lor_eq_0_iff, flag_values_disjoint.
    split.
    + intros E. destruct (flag_eqb g f) eqn:D.
      * left. destruct g, f; first [reflexivity | discriminate D].
      * right. apply IH. intros Z. apply E. split; [|exact Z].
        intros ->. destruct g; discriminate D.
    + intros [-> | I] [E1 E2]; [apply E1; reflexivity|].
      apply IH in I. exact (I E2).
Qed.

Lemma testbit_combine (fs : list flag) (n : N) :
  N.testbit (combine fs) n
  = existsb (fun f => N.testbit (flag_value f) n) fs.
Proof.
  induction fs as [|g fs IH]; simpl.
  - apply (N.bits_0 n).
  - rewrite N.lor_spec, IH. reflexivity.
Qed.

Lemma combine_low_bits (fs : list flag) : N.land (combine fs) 63 = combine fs.
Proof.
  induction fs as [|g fs IH]; simpl; [reflexivity|].
  rewrite N.land_lor_distr_l, IH. f_equal. destruct g; reflexivity.
Qed.

(** X12: two modes built with bitwise OR are the same number exactly when
    they were built from the same set of flags: order and repetition do not
    matter, and the only mode equal to [ENV_DEFAULT] is the one built from no
    flag. *)
Theorem combine_eq_iff_same_flags (fs1 fs2 : list flag) :
  (combine fs1 = combine fs2 <-> (forall f : flag, In f fs1 <-> In f fs2))
  /\ (combine fs1 = ENV_DEFAULT <-> fs1 = []).
Proof.
  assert (A : forall l1 l2 : list flag,
             combine l1 = combine l2 <-> (forall f, In f l1 <-> In f l2)).
  { intros l1 l2. split.
    - intros E f. rewrite <- !has_combine_In, E. reflexivity.
    - intros S. apply N.bits_inj. intros n. rewrite !testbit_combine.
      apply eq_true_iff_eq. rewrite !existsb_exists.
      split; intros (x & I & T); exists x; (split; [apply S; exact I | exact T]). }
  split; [apply A|].
  split.
  - intros E. destruct fs1 as [|g rest]; [reflexivity|]. exfalso.
    change ENV_DEFAULT with (combine []) in E.
    apply (proj1 (A _ _) E g). left. reflexivity.
  - intros ->. reflexivity.
Qed.

(** X13: the modes that can be built from the flags are exactly the
    numbers 0 to 63: every combination stays within the six low bits, and
    every number up to 63 is the combination of some flags. *)
Theorem combine_range (m : env_mode_flags_t) :
  (exists fs : list flag, combine fs = m) <-> (m <= 63)%N.
Proof.
  split.
  - intros [fs <-]. rewrite <- combine_low_bits.
    assert (L : (N.land (combine fs) (N.ones 6) < 2 ^ 6)%N).
    { rewrite N.land_ones. apply N.mod_lt. discriminate. }
    change (N.ones 6) with 63%N in L. change (2 ^ 6)%N with 64%N in L. lia.
  - intros L.
    exists (List.filter (fun f => has m (flag_value f)) all_flags).
    assert (C : forallb
                  (fun k => N.eqb
                     (combine (List.filter
                        (fun f => has (N.of_nat k) (flag_value f)) all_flags))
                     (N.of_nat k))
                  (seq 0 64) = true) by (vm_compute; reflexivity).
    rewrite forallb_forall in C.
    specialize (C (N.to_nat m)). rewrite N2Nat.id in C.
    apply N.eqb_eq, C, in_seq. lia.
Qed.

(** * Further properties of the constructors *)

(** X14: construction from a string is faithful for the comparisons: two
    constructed entities are [==] exactly when the strings are equal and
    [!=] exactly when they differ, and the default-constructed entity is
    [==] to the one constructed from the empty string. *)
Theorem env_var_construction_faithful (s t : wcstring) :
  (env_var_eq (env_var s) (env_var t) = true <-> s = t)
  /\ (env_var_ne (env_var s) (env_var t) = true <-> s <> t)
  /\ env_var_eq env_var_default (env_var "") = true.
Proof.
  unfold env_var_eq, env_var_ne. simpl.
  rewrite negb_true_iff, <- not_true_iff_false, String.eqb_eq.
  repeat split; auto.
Qed.

(** ** Instances of the further conditional statements *)

Lemma env_var_eq_equivalence_sample :
  env_var_eq (mk_env_var "v" false true) (env_var "v") = true
  /\ env_var_eq (env_var "v") (mk_env_var "v" false false) = true
  /\ env_var_eq (mk_env_var "v" false true) (mk_env_var "v" false false) = true.
Proof.
  split; [reflexivity|]. split; [reflexivity|].
  apply (proj2 (proj2 env_var_eq_equivalence)
           (mk_env_var "v" false true) (env_var "v") (mk_env_var "v" false false));
    reflexivity.
Defined.

Lemma env_var_eq_congruence_sample :
  env_var_eq (mk_env_var "v" false true) (env_var "v") = true
  /\ empty (mk_env_var "v" false true) = empty (env_var "v").
Proof.
  split; [reflexivity|].
  apply (env_var_eq_congruence (mk_env_var "v" false true) (env_var "v")).
  reflexivity.
Defined.

Lemma array_value_not_empty_sample :
  In ARRAY_SEP (list_ascii_of_string (val (env_var ARRAY_SEP_STR)))
  /\ empty (env_var ARRAY_SEP_STR) = false.
Proof.
  split; [left; reflexivity|].
  apply (array_value_not_empty (env_var ARRAY_SEP_STR)). left. reflexivity.
Defined.

Lemma set_val_then_compare_sample :
  is_missing (mk_env_var "old" false true) = false
  /\ exists e' : env_var_t,
       set_val (mk_env_var "old" false true) ENV_NULL = Done e'
       /\ env_var_eq_str e' ENV_NULL = true /\ env_var_ne_str e' ENV_NULL = false
       /\ missing e' = false /\ exportv e' = true
       /\ (empty e' = true <-> ENV_NULL = "" \/ ENV_NULL = ENV_NULL).
Proof.
  split; [reflexivity|].
  apply (set_val_then_compare (mk_env_var "old" false true) ENV_NULL).
  reflexivity.
Defined.

Lemma missing_is_permanent_sample :
  is_missing (set_missing (env_var "stale")) = true
  /\ run [SetExport true; SetMissing] (set_missing (env_var "stale"))
     = Done (mk_env_var "stale" true true)
  /\ is_missing (mk_env_var "stale" true true) = true
  /\ val (mk_env_var "stale" true true) = val (set_missing (env_var "stale")).
Proof.
  split; [reflexivity|]. split; [reflexivity|].
  apply (missing_is_permanent [SetExport true; SetMissing]
           (set_missing (env_var "stale")) (mk_env_var "stale" true true));
    reflexivity.
Defined.

Lemma run_final_state_sample :
  run [SetVal "a"; SetExport true; SetVal "b"; SetMissing; SetExport false]
      env_var_default
  = Done (mk_env_var "b" true false)
  /\ mk_env_var "b" true false
     = mk_env_var
         (last_val [SetVal "a"; SetExport true; SetVal "b"; SetMissing;
                    SetExport false] (val env_var_default))
         (is_missing env_var_default
          || existsb is_set_missing
               [SetVal "a"; SetExport true; SetVal "b"; SetMissing;
                SetExport false])
         (last_export [SetVal "a"; SetExport true; SetVal "b"; SetMissing;
                       SetExport false] (exportv env_var_default)).
Proof.
  split; [reflexivity|].
  apply (run_final_state
           [SetVal "a"; SetExport true; SetVal "b"; SetMissing; SetExport false]
           env_var_default (mk_env_var "b" true false)).
  reflexivity.
Defined.
